(** * Working-directory status model (app/src/models/status.ts)

    A shallow embedding of the [FileChange] family and of
    [WorkingDirectoryStatus], together with the properties the design
    document states about identity derivation, the tri-state include flag,
    bulk selection and lookup by id. *)

From stdpp Require Import gmap strings list fin_maps.

(** ** Enumerations *)

(** [enum AppFileStatusKind]: every member is a string enum member whose
    value is its own name. *)
Inductive AppFileStatusKind :=
| KNew | KModified | KDeleted | KCopied | KRenamed | KConflicted | KResolved.

(** The runtime (string) value of an [AppFileStatusKind] member; this is
    what a template literal interpolates. *)
Definition kind_value (k : AppFileStatusKind) : string :=
  match k with
  | KNew => "New"
  | KModified => "Modified"
  | KDeleted => "Deleted"
  | KCopied => "Copied"
  | KRenamed => "Renamed"
  | KConflicted => "Conflicted"
  | KResolved => "Resolved"
  end.

(** [enum DiffSelectionType] of ./diff, as far as status.ts uses it. *)
Module DiffSelectionType.
Inductive t := All | Partial | None.

#[global] Instance eq_dec : EqDecision t.
Proof. solve_decision. Defined.
End DiffSelectionType.

(** The part of the [DiffSelection] class of ./diff that status.ts calls.
    The class itself is not part of this file; it is taken as a parameter. *)
Class DiffSelectionOps (DiffSelection : Type) := {
  getSelectionType : DiffSelection → DiffSelectionType.t;
  withSelectAll : DiffSelection → DiffSelection;
  withSelectNone : DiffSelection → DiffSelection;
}.

(** ** AppFileStatus *)

Section Status.
(** [ConflictFileStatus] of ./conflicts is opaque to this file. *)
Context {ConflictFileStatus : Type}.

(** The union [PlainFileStatus | CopiedOrRenamedFileStatus |
    ConflictedFileStatus | ResolvedFileStatus], one constructor per value
    the [kind] discriminant can take in each member of the union. *)
Inductive AppFileStatus :=
| New                                              (* PlainFileStatus *)
| Modified                                         (* PlainFileStatus *)
| Deleted                                          (* PlainFileStatus *)
| Copied (oldPath : string)                        (* CopiedOrRenamedFileStatus *)
| Renamed (oldPath : string)                       (* CopiedOrRenamedFileStatus *)
| Conflicted (conflictStatus : ConflictFileStatus) (* ConflictedFileStatus *)
| Resolved.                                        (* ResolvedFileStatus *)

(** [status.kind] *)
Definition kind (status : AppFileStatus) : AppFileStatusKind :=
  match status with
  | New => KNew
  | Modified => KModified
  | Deleted => KDeleted
  | Copied _ => KCopied
  | Renamed _ => KRenamed
  | Conflicted _ => KConflicted
  | Resolved => KResolved
  end.

(** [status.oldPath], present only on [CopiedOrRenamedFileStatus]. *)
Definition oldPath_of (status : AppFileStatus) : option string :=
  match status with
  | Copied o | Renamed o => Some o
  | _ => None
  end.

(** ** FileChange *)

Record FileChange := mkFileChange {
  fc_path : string;
  fc_status : AppFileStatus;
  fc_id : string;
}.

(** The id computed by the [FileChange] constructor. *)
Definition file_id (path : string) (status : AppFileStatus) : string :=
  match status with
  | Renamed oldPath | Copied oldPath =>
      kind_value (kind status) +:+ "+" +:+ path +:+ "+" +:+ oldPath
  | _ => kind_value (kind status) +:+ "+" +:+ path
  end.

(** [new FileChange(path, status)] *)
Definition new_FileChange (path : string) (status : AppFileStatus) : FileChange :=
  {| fc_path := path; fc_status := status; fc_id := file_id path status |}.

(** ** CommittedFileChange *)

Record CommittedFileChange := mkCommittedFileChange {
  cfc_base : FileChange;
  commitish : string;
}.

(** [new CommittedFileChange(path, status, commitish)]: [super(path,
    status)], then the commitish is stored. *)
Definition new_CommittedFileChange
    (path : string) (status : AppFileStatus) (c : string) : CommittedFileChange :=
  {| cfc_base := new_FileChange path status; commitish := c |}.

(** ** WorkingDirectoryFileChange *)

Context {DiffSelection : Type} `{!DiffSelectionOps DiffSelection}.

Record WorkingDirectoryFileChange := mkWorkingDirectoryFileChange {
  wd_base : FileChange;
  selection : DiffSelection;
}.

Definition path (f : WorkingDirectoryFileChange) : string := fc_path (wd_base f).
Definition status (f : WorkingDirectoryFileChange) : AppFileStatus := fc_status (wd_base f).
Definition id (f : WorkingDirectoryFileChange) : string := fc_id (wd_base f).

(** [new WorkingDirectoryFileChange(path, status, selection)] *)
Definition new_WorkingDirectoryFileChange
    (p : string) (st : AppFileStatus) (sel : DiffSelection) : WorkingDirectoryFileChange :=
  {| wd_base := new_FileChange p st; selection := sel |}.

Definition withSelection
    (this : WorkingDirectoryFileChange) (sel : DiffSelection) : WorkingDirectoryFileChange :=
  new_WorkingDirectoryFileChange (path this) (status this) sel.

Definition withIncludeAll
    (this : WorkingDirectoryFileChange) (include : bool) : WorkingDirectoryFileChange :=
  let newSelection :=
    if include then withSelectAll (selection this)
    else withSelectNone (selection this) in
  withSelection this newSelection.

(** ** WorkingDirectoryStatus *)

(** [files.forEach((f, ix) => this.fileIxById.set(f.id, ix))], started at
    index [ix] on the map [m]. *)
Fixpoint index_files (ix : nat) (files : list WorkingDirectoryFileChange)
    (m : gmap string nat) : gmap string nat :=
  match files with
  | [] => m
  | f :: rest => index_files (S ix) rest (<[id f := ix]> m)
  end.

Record WorkingDirectoryStatus := mkWorkingDirectoryStatus {
  fileIxById : gmap string nat;
  files : list WorkingDirectoryFileChange;
  includeAll : option bool;
}.

(** The private constructor.  Both call sites pass [includeAll]
    explicitly, so its default value is never used. *)
Definition new_WorkingDirectoryStatus
    (fs : list WorkingDirectoryFileChange) (incl : option bool) : WorkingDirectoryStatus :=
  {| fileIxById := index_files 0 fs ∅; files := fs; includeAll := incl |}.

Definition selects (t : DiffSelectionType.t) (f : WorkingDirectoryFileChange) : bool :=
  bool_decide (getSelectionType (selection f) = t).

Definition getIncludeAllState (fs : list WorkingDirectoryFileChange) : option bool :=
  if Nat.eqb (length fs) 0 then Some true
  else
    let allSelected := forallb (selects DiffSelectionType.All) fs in
    let noneSelected := forallb (selects DiffSelectionType.None) fs in
    if allSelected then Some true
    else if noneSelected then Some false
    else None.

Definition fromFiles (fs : list WorkingDirectoryFileChange) : WorkingDirectoryStatus :=
  new_WorkingDirectoryStatus fs (getIncludeAllState fs).

Definition withIncludeAllFiles
    (this : WorkingDirectoryStatus) (incl : bool) : WorkingDirectoryStatus :=
  let newFiles := map (λ f, withIncludeAll f incl) (files this) in
  new_WorkingDirectoryStatus newFiles (Some incl).

(** [this.files[ix] || null]: an index outside the array reads
    [undefined], which [||] turns into [null]; a file object is truthy. *)
Definition findFileWithID
    (this : WorkingDirectoryStatus) (i : string) : option WorkingDirectoryFileChange :=
  match fileIxById this !! i with
  | Some ix => files this !! ix
  | None => None
  end.

Definition findFileIndexByID (this : WorkingDirectoryStatus) (i : string) : Z :=
  match fileIxById this !! i with
  | Some ix => Z.of_nat ix
  | None => (-1)%Z
  end.

End Status.

Arguments AppFileStatus : clear implicits.
Arguments FileChange : clear implicits.
Arguments CommittedFileChange : clear implicits.
Arguments WorkingDirectoryFileChange : clear implicits.
Arguments WorkingDirectoryStatus : clear implicits.

(** ** A concrete collaborator *)

(** Modelled from the spec: the [DiffSelection] class of ./diff, reduced to
    the tri-state contract the design document requires of it
    ([getSelectionType], [withSelectAll], [withSelectNone]); the selection
    carries nothing but its type. *)
Module TriState.
Definition DiffSelection : Type := DiffSelectionType.t.

#[global] Instance ops : DiffSelectionOps DiffSelection := {|
  getSelectionType s := s;
  withSelectAll _ := DiffSelectionType.All;
  withSelectNone _ := DiffSelectionType.None;
|}.

(** A working-directory file over the tri-state selection, with no
    conflict detail ([ConflictFileStatus] := [unit]). *)
Definition file (p : string) (st : AppFileStatus unit) (sel : DiffSelection)
  : WorkingDirectoryFileChange unit DiffSelection :=
  new_WorkingDirectoryFileChange p st sel.

(** A mixed working directory: one partially selected file, one
    deselected file. *)
Definition mixed : list (WorkingDirectoryFileChange unit DiffSelection) :=
  [file "a.txt" Modified DiffSelectionType.Partial;
   file "b.txt" New DiffSelectionType.None].

(** A working directory in which the first and the last file share the
    id "New+x". *)
Definition duplicated : list (WorkingDirectoryFileChange unit DiffSelection) :=
  [file "x" New DiffSelectionType.All;
   file "y" Modified DiffSelectionType.All;
   file "x" New DiffSelectionType.None].
End TriState.

(** ** Predicates used to state the properties *)

Section Predicates.
Context {ConflictFileStatus DiffSelection : Type} `{!DiffSelectionOps DiffSelection}.
Local Abbreviation WDFile := (WorkingDirectoryFileChange ConflictFileStatus DiffSelection).

(** Every file of [fs] has selection type [t]. *)
Definition every_file_selects (t : DiffSelectionType.t) (fs : list WDFile) : Prop :=
  Forall (λ f, getSelectionType (selection f) = t) fs.

(** [f] sits at position [k] of [fs], carries the id [i], and no later
    position of [fs] carries that id. *)
Definition latest_with_id (fs : list WDFile) (i : string) (k : nat) (f : WDFile) : Prop :=
  fs !! k = Some f ∧ id f = i ∧
  ∀ (j : nat) (g : WDFile), fs !! j = Some g → id g = i → j ≤ k.

(** Position [j] of [fs] is shadowed: a later position has the same id. *)
Definition shadowed (fs : list WDFile) (j : nat) : Prop :=
  ∃ (g : WDFile) (k : nat) (f : WDFile),
    fs !! j = Some g ∧ fs !! k = Some f ∧ j < k ∧ id f = id g.

(** [f] is the result of the [WorkingDirectoryFileChange] constructor, so
    that its id is the one derived from its path and status. *)
Definition constructed (f : WDFile) : Prop :=
  ∃ p st sel, f = new_WorkingDirectoryFileChange p st sel.

(** The ids of a file list, in order. *)
Definition ids (fs : list WDFile) : list string := map id fs.
End Predicates.

(** The separator character of ids, +. *)
Definition plus_char : Ascii.ascii := Ascii.ascii_of_nat 43.

(** Does the string contain the separator character of ids? *)
Fixpoint mentions_plus (s : string) : bool :=
  match s with
  | EmptyString => false
  | String c rest => if Ascii.eqb c plus_char then true else mentions_plus rest
  end.

(** * The missing-repository view (app/src/ui/missing-repository.tsx)

    The component keeps three private fields and talks to the window's
    timers and to the dispatcher.  A world holds the fields, the timers of
    this component that the window still has pending, and the calls made so
    far, oldest first.  Calls on the dispatcher return to the handler
    without running any other handler of the component; only the awaited
    [dispatcher.cloneAgain] has an outcome the component looks at. *)

Module MissingRepository.
Section Component.
(** The values a rejected dispatcher call is rejected with. *)
Context {Error : Type}.

(** What this file reads of ../models/repository. *)
Record GitHubRepository := mkGitHubRepository {
  cloneURL : option string;             (* string | null *)
}.

Record Repository := mkRepository {
  name : string;
  path : string;
  gitHubRepository : option GitHubRepository;   (* GitHubRepository | null *)
}.

(** Calls on the window and on the dispatcher, and [forceUpdate].  The
    callback given to [setTimeout] is always [checkingAgainTimerElapsed]. *)
Inductive Effect :=
| ClearTimeout (handle : Z)
| SetTimeout (ms : Z) (handle : Z)
| RefreshRepository (r : Repository)
| RemoveRepositories (rs : list Repository) (flag : bool)
| RelocateRepository (r : Repository)
| CloneAgain (url : string) (target : string)
| PostError (e : Error)
| ForceUpdate.

Record Component := mkComponent {
  checkingAgainTimeElapsed : bool;
  checkingAgainRefreshCompleted : bool;
  checkingTimer : option Z;             (* number | null *)
}.

Record World := mkWorld {
  this : Component;
  pending : gset Z;
  log : list Effect;
}.

(** The field initialisers of the class. *)
Definition initial : World :=
  {| this := {| checkingAgainTimeElapsed := true;
                checkingAgainRefreshCompleted := true;
                checkingTimer := None |};
     pending := ∅; log := [] |}.

Definition emit (e : Effect) (w : World) : World :=
  {| this := this w; pending := pending w; log := log w ++ [e] |}.

Definition set_checkingAgainTimeElapsed (b : bool) (w : World) : World :=
  {| this := {| checkingAgainTimeElapsed := b;
                checkingAgainRefreshCompleted := checkingAgainRefreshCompleted (this w);
                checkingTimer := checkingTimer (this w) |};
     pending := pending w; log := log w |}.

Definition set_checkingAgainRefreshCompleted (b : bool) (w : World) : World :=
  {| this := {| checkingAgainTimeElapsed := checkingAgainTimeElapsed (this w);
                checkingAgainRefreshCompleted := b;
                checkingTimer := checkingTimer (this w) |};
     pending := pending w; log := log w |}.

Definition set_checkingTimer (t : option Z) (w : World) : World :=
  {| this := {| checkingAgainTimeElapsed := checkingAgainTimeElapsed (this w);
                checkingAgainRefreshCompleted := checkingAgainRefreshCompleted (this w);
                checkingTimer := t |};
     pending := pending w; log := log w |}.

(** [window.clearTimeout(h)]: the timer, if still pending, is dropped. *)
Definition window_clearTimeout (h : Z) (w : World) : World :=
  emit (ClearTimeout h)
    {| this := this w; pending := pending w ∖ {[h]}; log := log w |}.

(** [window.setTimeout(this.checkingAgainTimerElapsed, ms)], the window
    answering with the handle [h]. *)
Definition window_setTimeout (ms : Z) (h : Z) (w : World) : World :=
  emit (SetTimeout ms h)
    {| this := this w; pending := {[h]} ∪ pending w; log := log w |}.

(** Truthiness of a [number | null] and of a [string | null]. *)
Definition truthy_number (v : option Z) : bool :=
  match v with
  | Some n => negb (n =? 0)%Z
  | None => false
  end.

Definition truthy_string (v : option string) : bool :=
  match v with
  | Some s => negb (String.eqb s "")
  | None => false
  end.

Definition clearCheckingTimer (w : World) : World :=
  match checkingTimer (this w) with
  | Some h =>
      if truthy_number (Some h)
      then set_checkingTimer None (window_clearTimeout h w)
      else w
  | None => w
  end.

(** [checkAgain], [h] being the handle [setTimeout] returns. *)
Definition checkAgain (repository : Repository) (h : Z) (w : World) : World :=
  let w := clearCheckingTimer w in
  let w := set_checkingAgainRefreshCompleted false w in
  let w := set_checkingAgainTimeElapsed false w in
  let w := set_checkingTimer (Some h) (window_setTimeout 1000 h w) in
  let w := emit (RefreshRepository repository) w in
  let w := set_checkingAgainRefreshCompleted true w in
  emit ForceUpdate w.

Definition checkingAgainTimerElapsed (w : World) : World :=
  let w := set_checkingAgainTimeElapsed true w in
  let w := clearCheckingTimer w in
  emit ForceUpdate w.

Definition componentWillUnmount (w : World) : World := clearCheckingTimer w.

(** The window runs the callback of the pending timer [h]: the timer
    leaves the pending set and [checkingAgainTimerElapsed] is called. *)
Definition timer_fires (h : Z) (w : World) : World :=
  checkingAgainTimerElapsed
    {| this := this w; pending := pending w ∖ {[h]}; log := log w |}.

Definition remove (repository : Repository) (w : World) : World :=
  emit (RemoveRepositories [repository] false) w.

Definition locate (repository : Repository) (w : World) : World :=
  emit (RelocateRepository repository) w.

(** [gitHubRepository && gitHubRepository.cloneURL] *)
Definition canCloneAgain (repository : Repository) : option string :=
  match gitHubRepository repository with
  | Some g => cloneURL g
  | None => None
  end.

(** The calls [cloneAgain] makes, in order, when [dispatcher.cloneAgain]
    resolves ([None]) or is rejected with [e] ([Some e]). *)
Definition cloneAgain (repository : Repository) (outcome : option Error) : list Effect :=
  match gitHubRepository repository with
  | None => []
  | Some g =>
      if negb (truthy_string (cloneURL g)) then []
      else
        match cloneURL g with
        | None => []
        | Some url =>
            CloneAgain url (path repository) ::
            match outcome with
            | Some e => [PostError e]
            | None => []
            end
        end
  end.

(** What [render] shows: the repository's name and path, the text of
    [renderCheckAgainText], and the row of buttons. *)
Inductive CheckAgainText := CheckAgainLink | CheckingSpan.

Inductive Button := LocateButton | CloneAgainButton | RemoveButton.

Record View := mkView {
  title_name : string;
  last_seen_path : string;
  check_again_text : CheckAgainText;
  buttons : list Button;
}.

Definition renderCheckAgainText (c : Component) : CheckAgainText :=
  if checkingAgainRefreshCompleted c && checkingAgainTimeElapsed c
  then CheckAgainLink else CheckingSpan.

Definition render (repository : Repository) (c : Component) : View :=
  let buttons := [LocateButton] in
  let buttons :=
    if truthy_string (canCloneAgain repository)
    then buttons ++ [CloneAgainButton] else buttons in
  let buttons := buttons ++ [RemoveButton] in
  {| title_name := name repository;
     last_seen_path := path repository;
     check_again_text := renderCheckAgainText c;
     buttons := buttons |}.

(** The worlds the component can be in while mounted: it starts from its
    initialisers, [checkAgain] runs with a handle of the window, which is a
    positive integer, a pending timer may fire, and the other buttons may
    be pressed. *)
Inductive reachable : World → Prop :=
| reachable_initial : reachable initial
| reachable_checkAgain (w : World) (repository : Repository) (h : Z) :
    reachable w → (0 < h)%Z → reachable (checkAgain repository h w)
| reachable_timer_fires (w : World) (h : Z) :
    reachable w → h ∈ pending w → reachable (timer_fires h w)
| reachable_remove (w : World) (repository : Repository) :
    reachable w → reachable (remove repository w)
| reachable_locate (w : World) (repository : Repository) :
    reachable w → reachable (locate repository w).

(** The timers the component believes to be pending. *)
Definition own_timers (c : Component) : gset Z :=
  match checkingTimer c with
  | Some h => {[h]}
  | None => ∅
  end.

(** What holds of the fields in every reachable world. *)
Definition fields_consistent (w : World) : Prop :=
  pending w = own_timers (this w) ∧
  checkingAgainRefreshCompleted (this w) = true ∧
  (checkingAgainTimeElapsed (this w) = false ↔ is_Some (checkingTimer (this w))) ∧
  (∀ h, checkingTimer (this w) = Some h → (0 < h)%Z).
End Component.

(** A repository with a clone URL, and the world after one [checkAgain]
    whose timer got the handle 7. *)
Definition sample_repository : Repository :=
  {| name := "desktop"; path := "/home/u/desktop";
     gitHubRepository := Some {| cloneURL := Some "https://example.org/desktop.git" |} |}.

Definition checking : @World unit := checkAgain sample_repository 7 initial.
End MissingRepository.

(** * Properties *)

Section Identity.
Context {ConflictFileStatus : Type}.
Local Abbreviation Status := (AppFileStatus ConflictFileStatus).

Lemma file_id_renamed_or_copied (p : string) (st : Status) :
  kind st = KRenamed ∨ kind st = KCopied →
  ∃ o, oldPath_of st = Some o ∧
       file_id p st = kind_value (kind st) +:+ "+" +:+ p +:+ "+" +:+ o.
Proof. destruct st; intros [?|?]; try discriminate; eauto. Qed.

Lemma file_id_other (p : string) (st : Status) :
  kind st ≠ KRenamed → kind st ≠ KCopied →
  oldPath_of st = None ∧ file_id p st = kind_value (kind st) +:+ "+" +:+ p.
Proof. destruct st; intros ? ?; try done. Qed.

Lemma file_id_congr (p : string) (st1 st2 : Status) :
  kind st1 = kind st2 → oldPath_of st1 = oldPath_of st2 →
  file_id p st1 = file_id p st2.
Proof. destruct st1, st2; simpl; intros; try discriminate; congruence. Qed.

(** C1: the id stored by the [FileChange] constructor is
    kind + "+" + path + "+" + oldPath for a Renamed or Copied status and
    kind + "+" + path for every other kind; a rename of a.txt to b.txt
    gets the id "Renamed+b.txt+a.txt"; and two constructions that agree
    on (kind, path, oldPath) store the same id. *)
Theorem FileChange_id_derivation (p : string) (st : Status) :
  (kind st = KRenamed ∨ kind st = KCopied →
     ∃ o, oldPath_of st = Some o ∧
          fc_id (new_FileChange p st)
          = kind_value (kind st) +:+ "+" +:+ p +:+ "+" +:+ o) ∧
  (kind st ≠ KRenamed → kind st ≠ KCopied →
     fc_id (new_FileChange p st) = kind_value (kind st) +:+ "+" +:+ p) ∧
  fc_id (new_FileChange "b.txt" (Renamed "a.txt" : Status)) = "Renamed+b.txt+a.txt" ∧
  (∀ (p' : string) (st' : Status),
     kind st' = kind st → p' = p → oldPath_of st' = oldPath_of st →
     fc_id (new_FileChange p' st') = fc_id (new_FileChange p st)).
Proof.
  split_and!.
  - apply file_id_renamed_or_copied.
  - intros. by apply file_id_other.
  - reflexivity.
  - intros p' st' Hk -> Ho. by apply file_id_congr.
Qed.

(** C10: the id of a [CommittedFileChange] is that of its [FileChange]
    part and is the same whatever commitish the change is built with. *)
Theorem CommittedFileChange_id_ignores_commitish
    (p : string) (st : Status) (c1 c2 : string) :
  fc_id (cfc_base (new_CommittedFileChange p st c1))
  = fc_id (cfc_base (new_CommittedFileChange p st c2)).
Proof. reflexivity. Qed.

Lemma CommittedFileChange_keeps_commitish (p : string) (st : Status) (c : string) :
  commitish (new_CommittedFileChange p st c) = c ∧
  fc_id (cfc_base (new_CommittedFileChange p st c)) = file_id p st.
Proof. done. Qed.
End Identity.

Section IncludeAll.
Context {ConflictFileStatus DiffSelection : Type} `{!DiffSelectionOps DiffSelection}.
Local Abbreviation WDFile := (WorkingDirectoryFileChange ConflictFileStatus DiffSelection).

Lemma forallb_selects (t : DiffSelectionType.t) (fs : list WDFile) :
  forallb (selects t) fs = true ↔ every_file_selects t fs.
Proof.
  unfold every_file_selects. induction fs as [|f fs IH]; simpl.
  - split; [constructor | done].
  - rewrite andb_true_iff, Forall_cons, IH. unfold selects.
    by rewrite bool_decide_eq_true.
Qed.

Lemma forallb_selects_false (t : DiffSelectionType.t) (fs : list WDFile) :
  forallb (selects t) fs = false ↔ ¬ every_file_selects t fs.
Proof.
  by rewrite <- forallb_selects, not_true_iff_false.
Qed.

Lemma all_and_none_exclusive (fs : list WDFile) :
  fs ≠ [] →
  every_file_selects DiffSelectionType.All fs →
  every_file_selects DiffSelectionType.None fs → False.
Proof.
  destruct fs as [|f fs]; [done|]. intros _ Ha Hn.
  apply Forall_cons in Ha as [Ha _]. apply Forall_cons in Hn as [Hn _].
  congruence.
Qed.

Lemma getIncludeAllState_nonempty (fs : list WDFile) :
  fs ≠ [] →
  getIncludeAllState fs =
    if forallb (selects DiffSelectionType.All) fs then Some true
    else if forallb (selects DiffSelectionType.None) fs then Some false
    else None.
Proof. by destruct fs. Qed.

(** C2: [getIncludeAllState] answers [true] on the empty list; on a
    non-empty list it answers [true] exactly when every file selects
    [All], [false] exactly when every file selects [None], and [null]
    exactly in the remaining (mixed) case.  The all-[All] test comes
    first: whenever it succeeds the answer is [true].  [fromFiles]
    stores that value. *)
Theorem getIncludeAllState_tristate (fs : list WDFile) :
  (fs = [] → getIncludeAllState fs = Some true) ∧
  (fs ≠ [] →
     (getIncludeAllState fs = Some true ↔ every_file_selects DiffSelectionType.All fs) ∧
     (getIncludeAllState fs = Some false ↔ every_file_selects DiffSelectionType.None fs) ∧
     (getIncludeAllState fs = None ↔
        ¬ every_file_selects DiffSelectionType.All fs ∧
        ¬ every_file_selects DiffSelectionType.None fs)) ∧
  (every_file_selects DiffSelectionType.All fs → getIncludeAllState fs = Some true) ∧
  includeAll (fromFiles fs) = getIncludeAllState fs ∧
  files (fromFiles fs) = fs.
Proof.
  split_and!; try done.
  - by intros ->.
  - intros Hne. rewrite (getIncludeAllState_nonempty fs Hne).
    pose proof (all_and_none_exclusive fs Hne) as Hex.
    pose proof (forallb_selects DiffSelectionType.All fs) as Ha.
    pose proof (forallb_selects DiffSelectionType.None fs) as Hn.
    destruct (forallb (selects DiffSelectionType.All) fs) eqn:Ea;
      destruct (forallb (selects DiffSelectionType.None) fs) eqn:En;
      rewrite <- ?Ha, <- ?Hn in *; intuition congruence.
  - intros Ha. apply forallb_selects in Ha.
    unfold getIncludeAllState. rewrite Ha. by destruct (length fs =? 0).
Qed.
End IncludeAll.

Section Selection.
Context {ConflictFileStatus DiffSelection : Type} `{!DiffSelectionOps DiffSelection}.
Local Abbreviation Status := (AppFileStatus ConflictFileStatus).
Local Abbreviation WDFile := (WorkingDirectoryFileChange ConflictFileStatus DiffSelection).
Local Abbreviation WDStatus := (WorkingDirectoryStatus ConflictFileStatus DiffSelection).

Lemma constructed_fields (p : string) (st : Status) (sel : DiffSelection) :
  path (new_WorkingDirectoryFileChange p st sel) = p ∧
  status (new_WorkingDirectoryFileChange p st sel) = st ∧
  id (new_WorkingDirectoryFileChange p st sel) = file_id p st ∧
  selection (new_WorkingDirectoryFileChange p st sel) = sel.
Proof. done. Qed.

Lemma withIncludeAll_selection (f : WDFile) (include : bool) :
  selection (withIncludeAll f include)
  = if include then withSelectAll (selection f) else withSelectNone (selection f).
Proof. by destruct include. Qed.

(** C7: for a file built by the constructor, [withIncludeAll] and
    [withSelection] return a file with the same path, status and id; the
    selection is the only field that is replaced. *)
Theorem selection_update_frame
    (p : string) (st : Status) (sel0 : DiffSelection)
    (include : bool) (sel : DiffSelection) :
  let f := new_WorkingDirectoryFileChange p st sel0 in
  (path (withIncludeAll f include) = path f ∧
   status (withIncludeAll f include) = status f ∧
   id (withIncludeAll f include) = id f ∧
   selection (withIncludeAll f include)
   = if include then withSelectAll sel0 else withSelectNone sel0) ∧
  (path (withSelection f sel) = path f ∧
   status (withSelection f sel) = status f ∧
   id (withSelection f sel) = id f ∧
   selection (withSelection f sel) = sel).
Proof. simpl. by destruct include. Qed.

Lemma withIncludeAllFiles_files (s : WDStatus) (b : bool) :
  files (withIncludeAllFiles s b) = map (λ f, withIncludeAll f b) (files s).
Proof. done. Qed.

(** C3: [withIncludeAllFiles b] builds a status whose files are the
    original files, in order, each mapped through [withIncludeAll b], and
    whose [includeAll] is the argument [b] itself; the aggregate flag is
    not derived from the new files. *)
Theorem withIncludeAllFiles_contract (s : WDStatus) (b : bool) :
  files (withIncludeAllFiles s b) = map (λ f, withIncludeAll f b) (files s) ∧
  includeAll (withIncludeAllFiles s b) = Some b ∧
  withIncludeAllFiles s b
  = new_WorkingDirectoryStatus (map (λ f, withIncludeAll f b) (files s)) (Some b).
Proof. done. Qed.

Lemma withIncludeAllFiles_types (s : WDStatus) (b : bool) (t : DiffSelectionType.t) :
  (∀ sel : DiffSelection,
     getSelectionType (if b then withSelectAll sel else withSelectNone sel) = t) →
  every_file_selects t (files (withIncludeAllFiles s b)).
Proof.
  intros Hsel. unfold every_file_selects. rewrite withIncludeAllFiles_files.
  apply Forall_map, Forall_forall. intros f _.
  cbn beta. rewrite withIncludeAll_selection. apply Hsel.
Qed.

(** C4: when the collaborator's [withSelectAll] yields a selection of
    type [All], [withIncludeAllFiles true] on a non-empty status gives a
    status whose [includeAll] is [true] and all of whose files select
    [All]. *)
Theorem withIncludeAllFiles_true_selects_all (s : WDStatus) :
  (∀ sel : DiffSelection,
     getSelectionType (withSelectAll sel) = DiffSelectionType.All) →
  files s ≠ [] →
  includeAll (withIncludeAllFiles s true) = Some true ∧
  every_file_selects DiffSelectionType.All (files (withIncludeAllFiles s true)) ∧
  files (withIncludeAllFiles s true) ≠ [].
Proof.
  intros HAll Hne. split_and!; [done | by apply withIncludeAllFiles_types |].
  simpl. by destruct (files s).
Qed.

(** The selection types of the files of a status, in order. *)
Lemma selection_types_after (s : WDStatus) (b : bool) (t : DiffSelectionType.t) :
  (∀ sel : DiffSelection,
     getSelectionType (if b then withSelectAll sel else withSelectNone sel) = t) →
  map (λ f, getSelectionType (selection f)) (files (withIncludeAllFiles s b))
  = replicate (length (files s)) t.
Proof.
  intros Hsel. rewrite withIncludeAllFiles_files.
  induction (files s) as [|f fs IH]; [done|].
  cbn [map length replicate]. by rewrite IH, withIncludeAll_selection, Hsel.
Qed.

Lemma withIncludeAllFiles_frame (s : WDStatus) (b : bool) :
  map path (files (withIncludeAllFiles s b)) = map path (files s) ∧
  map status (files (withIncludeAllFiles s b)) = map status (files s) ∧
  length (files (withIncludeAllFiles s b)) = length (files s).
Proof.
  rewrite withIncludeAllFiles_files, length_map, !map_map. split_and!; [| |done].
  - apply map_ext. intros f. by destruct b.
  - apply map_ext. intros f. by destruct b.
Qed.

(** C8: when the collaborator's [withSelectAll] / [withSelectNone] yield
    selections of type [All] / [None], flipping [x] to [!x] with [!x]
    false leaves every file with selection type [None], and applying
    [withIncludeAllFiles] twice with the same boolean gives each file the
    selection type it has after one application (and the same
    [includeAll]).  The files in question are the files of the original
    status: in both cases the result has one file for each original file,
    in order, with the original path and status, and the selection types
    are [None] for every original file after the flip and [All] or
    [None], according to the boolean, after one or two applications. *)
Theorem withIncludeAllFiles_flip_and_idempotent (s : WDStatus) (x : bool) :
  (∀ sel : DiffSelection,
     getSelectionType (withSelectAll sel) = DiffSelectionType.All) →
  (∀ sel : DiffSelection,
     getSelectionType (withSelectNone sel) = DiffSelectionType.None) →
  (negb x = false →
     every_file_selects DiffSelectionType.None
       (files (withIncludeAllFiles (withIncludeAllFiles s x) (negb x))) ∧
     map (λ f, getSelectionType (selection f))
         (files (withIncludeAllFiles (withIncludeAllFiles s x) (negb x)))
     = replicate (length (files s)) DiffSelectionType.None) ∧
  (files (withIncludeAllFiles (withIncludeAllFiles s x) (negb x))
   = map (λ f, withIncludeAll (withIncludeAll f x) (negb x)) (files s) ∧
   map path (files (withIncludeAllFiles (withIncludeAllFiles s x) (negb x)))
   = map path (files s) ∧
   map status (files (withIncludeAllFiles (withIncludeAllFiles s x) (negb x)))
   = map status (files s)) ∧
  map (λ f, getSelectionType (selection f))
      (files (withIncludeAllFiles (withIncludeAllFiles s x) x))
  = map (λ f, getSelectionType (selection f)) (files (withIncludeAllFiles s x)) ∧
  map (λ f, getSelectionType (selection f)) (files (withIncludeAllFiles s x))
  = replicate (length (files s))
      (if x then DiffSelectionType.All else DiffSelectionType.None) ∧
  (files (withIncludeAllFiles (withIncludeAllFiles s x) x)
   = map (λ f, withIncludeAll (withIncludeAll f x) x) (files s) ∧
   map path (files (withIncludeAllFiles (withIncludeAllFiles s x) x))
   = map path (files s) ∧
   map status (files (withIncludeAllFiles (withIncludeAllFiles s x) x))
   = map status (files s)) ∧
  includeAll (withIncludeAllFiles (withIncludeAllFiles s x) x)
  = includeAll (withIncludeAllFiles s x) ∧
  includeAll (withIncludeAllFiles s x) = Some x.
Proof.
  intros HAll HNone.
  assert (∀ (s0 : WDStatus) (y : bool),
            map (λ f, getSelectionType (selection f)) (files (withIncludeAllFiles s0 y))
            = replicate (length (files s0))
                (if y then DiffSelectionType.All else DiffSelectionType.None))
    as Htypes.
  { intros s0 y. apply selection_types_after. intros sel. by destruct y. }
  assert (∀ y : bool,
            files (withIncludeAllFiles (withIncludeAllFiles s x) y)
            = map (λ f, withIncludeAll (withIncludeAll f x) y) (files s) ∧
            map path (files (withIncludeAllFiles (withIncludeAllFiles s x) y))
            = map path (files s) ∧
            map status (files (withIncludeAllFiles (withIncludeAllFiles s x) y))
            = map status (files s))
    as Hframe.
  { intros y.
    destruct (withIncludeAllFiles_frame (withIncludeAllFiles s x) y) as (Hp & Hs & _).
    destruct (withIncludeAllFiles_frame s x) as (Hp' & Hs' & _).
    split_and!; [| congruence | congruence].
    by rewrite !withIncludeAllFiles_files, map_map. }
  split_and!; try done; try apply Hframe.
  - intros Hx. rewrite Hx. split; [by apply withIncludeAllFiles_types|].
    rewrite (Htypes _ false).
    by destruct (withIncludeAllFiles_frame s x) as (_ & _ & ->).
  - rewrite !Htypes.
    by destruct (withIncludeAllFiles_frame s x) as (_ & _ & ->).
Qed.
End Selection.

Section Index.
Context {ConflictFileStatus DiffSelection : Type}.
Local Abbreviation WDFile := (WorkingDirectoryFileChange ConflictFileStatus DiffSelection).

(** Indexing one more file at the end is one more [set] on the map. *)
Lemma index_files_snoc (ix : nat) (fs : list WDFile) (f : WDFile) (m : gmap string nat) :
  index_files ix (fs ++ [f]) m = <[id f := ix + length fs]> (index_files ix fs m).
Proof.
  revert ix m. induction fs as [|g fs IH]; intros ix m; simpl.
  - by rewrite Nat.add_0_r.
  - rewrite IH. f_equal. lia.
Qed.

Lemma latest_with_id_snoc_eq (fs : list WDFile) (x : WDFile) (k : nat) :
  (∃ f, latest_with_id (fs ++ [x]) (id x) k f) ↔ k = length fs.
Proof.
  split.
  - intros (f & Hk & _ & Hmax).
    apply lookup_lt_Some in Hk. rewrite length_app in Hk. simpl in Hk.
    specialize (Hmax (length fs) x (list_lookup_middle fs [] x _ eq_refl) eq_refl).
    lia.
  - intros ->. exists x. split_and!; [by apply list_lookup_middle | done |].
    intros j g Hj _. apply lookup_lt_Some in Hj.
    rewrite length_app in Hj. simpl in Hj. lia.
Qed.

Lemma latest_with_id_snoc_ne (fs : list WDFile) (x : WDFile) (i : string) (k : nat) :
  id x ≠ i →
  (∃ f, latest_with_id (fs ++ [x]) i k f) ↔ (∃ f, latest_with_id fs i k f).
Proof.
  intros Hne. split; intros (f & Hk & Hid & Hmax); exists f.
  - apply lookup_app_Some in Hk as [Hk | [_ Hk]].
    + split_and!; [done..|]. intros j g Hj. apply Hmax. by apply lookup_app_l_Some.
    + apply list_lookup_singleton_Some in Hk as [_ ->]. done.
  - split_and!; [by apply lookup_app_l_Some | done |].
    intros j g Hj Hg. apply lookup_app_Some in Hj as [Hj | [_ Hj]].
    + by eapply Hmax.
    + apply list_lookup_singleton_Some in Hj as [_ ->]. done.
Qed.

(** The map built by the constructor sends an id to the last position
    of the file list that carries it, and to nothing else. *)
Lemma index_files_latest (fs : list WDFile) (i : string) (k : nat) :
  index_files 0 fs ∅ !! i = Some k ↔ ∃ f, latest_with_id fs i k f.
Proof.
  revert k. induction fs as [|x fs IH] using rev_ind; intros k.
  - simpl. rewrite lookup_empty. split; [done|]. by intros (f & Hk & _).
  - rewrite index_files_snoc, lookup_insert. case_decide as Hx.
    + subst i. rewrite latest_with_id_snoc_eq. simpl.
      split; [by intros [= <-] | by intros ->].
    + by rewrite latest_with_id_snoc_ne.
Qed.

Lemma index_files_absent (fs : list WDFile) (i : string) :
  index_files 0 fs ∅ !! i = None ↔ ∀ f, f ∈ fs → id f ≠ i.
Proof.
  induction fs as [|x fs IH] using rev_ind.
  - simpl. rewrite lookup_empty. split; [|done]. intros _ f Hf. by apply elem_of_nil in Hf.
  - rewrite index_files_snoc, lookup_insert_None, IH. split.
    + intros [Hfs Hx] f [Hf | Hf%list_elem_of_singleton]%elem_of_app; [by apply Hfs | by subst f].
    + intros H. split; [intros f Hf | ]; apply H; apply elem_of_app; [by left | right].
      by apply list_elem_of_singleton.
Qed.

(** Every id carried by some file has a latest carrier. *)
Lemma latest_with_id_exists (fs : list WDFile) (j : nat) (g : WDFile) :
  fs !! j = Some g →
  ∃ k f, j ≤ k ∧ latest_with_id fs (id g) k f.
Proof.
  intros Hj.
  destruct (index_files 0 fs ∅ !! id g) as [k|] eqn:Hk.
  - apply index_files_latest in Hk as [f Hf]. exists k, f. split; [|done].
    destruct Hf as (_ & _ & Hmax). by eapply Hmax.
  - rewrite index_files_absent in Hk. exfalso. eapply Hk; [|done].
    by eapply list_elem_of_lookup_2.
Qed.

Lemma find_latest (fs : list WDFile) (incl : option bool) (i : string) (k : nat) (f : WDFile) :
  latest_with_id fs i k f →
  findFileWithID (new_WorkingDirectoryStatus fs incl) i = Some f ∧
  findFileIndexByID (new_WorkingDirectoryStatus fs incl) i = Z.of_nat k.
Proof.
  intros Hl. pose proof Hl as (Hk & _).
  assert (index_files 0 fs ∅ !! i = Some k) as Hix by (apply index_files_latest; eauto).
  unfold findFileWithID, findFileIndexByID. simpl. by rewrite Hix.
Qed.

Lemma find_absent (fs : list WDFile) (incl : option bool) (i : string) :
  (∀ f, f ∈ fs → id f ≠ i) →
  findFileWithID (new_WorkingDirectoryStatus fs incl) i = None ∧
  findFileIndexByID (new_WorkingDirectoryStatus fs incl) i = (-1)%Z.
Proof.
  intros Habs%index_files_absent.
  unfold findFileWithID, findFileIndexByID. simpl. by rewrite Habs.
Qed.

Lemma shadowed_not_indexed (fs : list WDFile) (j : nat) (i : string) :
  shadowed fs j → index_files 0 fs ∅ !! i ≠ Some j.
Proof.
  intros (g & k & f & Hj & Hk & Hlt & Hid) Hix.
  apply index_files_latest in Hix as (g' & Hj' & Hi & Hmax).
  assert (g' = g) as -> by congruence.
  specialize (Hmax k f Hk). rewrite Hid in Hmax. specialize (Hmax Hi). lia.
Qed.
End Index.

Section Lookup.
Context {ConflictFileStatus DiffSelection : Type}.
Local Abbreviation Status := (AppFileStatus ConflictFileStatus).
Local Abbreviation WDFile := (WorkingDirectoryFileChange ConflictFileStatus DiffSelection).

(** C5: in a constructed status the id-to-index map is the inverse of
    the file list by id, the last file winning among files that share an
    id.  Construction keeps the file list as given, duplicates included;
    looking up the id of any file returns the latest file with that id
    and its position; and a position shadowed by a later file with the
    same id still holds its file but is returned by no lookup. *)
Theorem index_last_write_wins (fs : list WDFile) (incl : option bool) :
  let s := new_WorkingDirectoryStatus fs incl in
  files s = fs ∧
  (∀ (i : string) (k : nat),
     fileIxById s !! i = Some k ↔ ∃ f, latest_with_id fs i k f) ∧
  (∀ (j : nat) (g : WDFile),
     fs !! j = Some g →
     ∃ (k : nat) (f : WDFile),
       j ≤ k ∧ latest_with_id fs (id g) k f ∧
       findFileWithID s (id g) = Some f ∧
       findFileIndexByID s (id g) = Z.of_nat k) ∧
  (∀ j : nat,
     shadowed fs j →
     is_Some (files s !! j) ∧
     ∀ i : string,
       fileIxById s !! i ≠ Some j ∧ findFileIndexByID s i ≠ Z.of_nat j).
Proof.
  simpl. split_and!.
  - done.
  - apply index_files_latest.
  - intros j g Hj. destruct (latest_with_id_exists fs j g Hj) as (k & f & Hle & Hl).
    exists k, f. split_and!; [done..| |]; by eapply find_latest.
  - intros j Hsh. split.
    + destruct Hsh as (g & _ & _ & Hj & _). by exists g.
    + intros i. pose proof (shadowed_not_indexed fs j i Hsh) as Hno.
      split; [done|]. unfold findFileIndexByID. simpl.
      destruct (index_files 0 fs ∅ !! i) as [k|]; [|lia].
      intros Hk. apply Hno. f_equal. lia.
Qed.

(** C6: on a constructed status, when some file carries the id,
    [findFileWithID] returns a file of the list with that id and
    [findFileIndexByID] its position; when no file carries it they
    return the sentinels [null] and [-1].  Both are total functions of
    the status and the id. *)
Theorem lookup_by_id (fs : list WDFile) (incl : option bool) (i : string) :
  let s := new_WorkingDirectoryStatus fs incl in
  ((∃ g, g ∈ fs ∧ id g = i) →
     ∃ (k : nat) (f : WDFile),
       fs !! k = Some f ∧ id f = i ∧
       findFileWithID s i = Some f ∧
       findFileIndexByID s i = Z.of_nat k) ∧
  ((∀ g, g ∈ fs → id g ≠ i) →
     findFileWithID s i = None ∧ findFileIndexByID s i = (-1)%Z) ∧
  (∀ f, findFileWithID s i = Some f → f ∈ fs ∧ id f = i) ∧
  (-1 ≤ findFileIndexByID s i < Z.of_nat (length fs))%Z.
Proof.
  simpl. split; [|split; [|split]].
  - intros (g & [j Hj]%list_elem_of_lookup_1 & <-).
    destruct (latest_with_id_exists fs j g Hj) as (k & f & _ & Hl).
    exists k, f. pose proof Hl as (Hk & Hid & _).
    split_and!; [done..| |]; by eapply find_latest.
  - apply find_absent.
  - intros f. unfold findFileWithID. simpl.
    destruct (index_files 0 fs ∅ !! i) as [k|] eqn:Hix; [|done].
    intros Hk. apply index_files_latest in Hix as (f' & Hk' & Hid & _).
    assert (f' = f) as -> by congruence.
    split; [by eapply list_elem_of_lookup_2 | done].
  - unfold findFileIndexByID. simpl.
    destruct (index_files 0 fs ∅ !! i) as [k|] eqn:Hix; [|lia].
    apply index_files_latest in Hix as (f & Hk%lookup_lt_Some & _). lia.
Qed.

(** C9: the id does not determine (path, oldPath).  Renaming c to a+b
    and renaming b+c to a are two Renamed changes with different paths
    and old paths and the same id "Renamed+a+b+c"; in a status holding
    both, that id leads to the second file only and position 0 is
    returned by no lookup. *)
Theorem file_id_not_injective (sel1 sel2 : DiffSelection) (incl : option bool) :
  let st1 : Status := Renamed "c" in
  let st2 : Status := Renamed "b+c" in
  let f1 := new_WorkingDirectoryFileChange "a+b" st1 sel1 in
  let f2 := new_WorkingDirectoryFileChange "a" st2 sel2 in
  let s := new_WorkingDirectoryStatus [f1; f2] incl in
  kind st1 = KRenamed ∧ kind st2 = KRenamed ∧
  path f1 ≠ path f2 ∧ oldPath_of (status f1) ≠ oldPath_of (status f2) ∧
  fc_id (new_FileChange "a+b" st1) = "Renamed+a+b+c" ∧
  fc_id (new_FileChange "a" st2) = "Renamed+a+b+c" ∧
  id f1 = id f2 ∧
  files s = [f1; f2] ∧
  findFileIndexByID s "Renamed+a+b+c" = 1%Z ∧
  findFileWithID s "Renamed+a+b+c" = Some f2 ∧
  (∀ i : string, findFileIndexByID s i ≠ 0%Z).
Proof.
  simpl. split_and!; try done.
  intros i. unfold findFileIndexByID. simpl.
  change (id (new_WorkingDirectoryFileChange "a+b" (Renamed "c") sel1))
    with "Renamed+a+b+c".
  change (id (new_WorkingDirectoryFileChange "a" (Renamed "b+c") sel2))
    with "Renamed+a+b+c".
  rewrite insert_insert_eq, lookup_insert.
  case_decide; [done|]. by rewrite lookup_empty.
Qed.
End Lookup.

(** * The properties on concrete working directories *)

Section Examples.
Import TriState.

Example includeAll_of_empty :
  includeAll (fromFiles ([] : list (WorkingDirectoryFileChange unit DiffSelection)))
  = Some true.
Proof. reflexivity. Qed.

Example includeAll_all_all_all :
  getIncludeAllState
    [file "a" New DiffSelectionType.All; file "b" Modified DiffSelectionType.All;
     file "c" Deleted DiffSelectionType.All] = Some true.
Proof. reflexivity. Qed.

Example includeAll_none_none :
  getIncludeAllState
    [file "a" New DiffSelectionType.None; file "b" Modified DiffSelectionType.None]
  = Some false.
Proof. reflexivity. Qed.

Example includeAll_all_none :
  getIncludeAllState
    [file "a" New DiffSelectionType.All; file "b" Modified DiffSelectionType.None]
  = None.
Proof. reflexivity. Qed.

Example includeAll_mixed : includeAll (fromFiles mixed) = None.
Proof. reflexivity. Qed.

Example same_path_distinct_kinds :
  id (file "x" New DiffSelectionType.All) = "New+x" ∧
  id (file "x" Modified DiffSelectionType.All) = "Modified+x".
Proof. split; reflexivity. Qed.

Example duplicated_lookup :
  findFileIndexByID (fromFiles duplicated) "New+x" = 2%Z ∧
  findFileWithID (fromFiles duplicated) "New+x"
  = Some (file "x" New DiffSelectionType.None) ∧
  findFileIndexByID (fromFiles duplicated) "Modified+y" = 1%Z ∧
  findFileIndexByID (fromFiles duplicated) "Deleted+x" = (-1)%Z ∧
  findFileWithID (fromFiles duplicated) "Deleted+x" = None ∧
  files (fromFiles duplicated) !! 0 = Some (file "x" New DiffSelectionType.All).
Proof. vm_compute. done. Qed.

Lemma withIncludeAllFiles_true_selects_all_witness :
  (∀ sel : DiffSelection, getSelectionType (withSelectAll sel) = DiffSelectionType.All) ∧
  files (fromFiles mixed) ≠ [] ∧
  includeAll (withIncludeAllFiles (fromFiles mixed) true) = Some true ∧
  every_file_selects DiffSelectionType.All
    (files (withIncludeAllFiles (fromFiles mixed) true)) ∧
  files (withIncludeAllFiles (fromFiles mixed) true) ≠ [].
Proof.
  split; [reflexivity|]. split; [discriminate|].
  apply (withIncludeAllFiles_true_selects_all (fromFiles mixed));
    [reflexivity | discriminate].
Defined.

Lemma withIncludeAllFiles_flip_and_idempotent_witness :
  (∀ sel : DiffSelection, getSelectionType (withSelectAll sel) = DiffSelectionType.All) ∧
  (∀ sel : DiffSelection, getSelectionType (withSelectNone sel) = DiffSelectionType.None) ∧
  (negb true = false →
     every_file_selects DiffSelectionType.None
       (files (withIncludeAllFiles (withIncludeAllFiles (fromFiles mixed) true)
                 (negb true))) ∧
     map (λ f, getSelectionType (selection f))
         (files (withIncludeAllFiles (withIncludeAllFiles (fromFiles mixed) true)
                   (negb true)))
     = replicate (length (files (fromFiles mixed))) DiffSelectionType.None) ∧
  (files (withIncludeAllFiles (withIncludeAllFiles (fromFiles mixed) true) (negb true))
   = map (λ f, withIncludeAll (withIncludeAll f true) (negb true))
       (files (fromFiles mixed)) ∧
   map path (files (withIncludeAllFiles (withIncludeAllFiles (fromFiles mixed) true)
                      (negb true)))
   = map path (files (fromFiles mixed)) ∧
   map status (files (withIncludeAllFiles (withIncludeAllFiles (fromFiles mixed) true)
                        (negb true)))
   = map status (files (fromFiles mixed))) ∧
  map (λ f, getSelectionType (selection f))
      (files (withIncludeAllFiles (withIncludeAllFiles (fromFiles mixed) true) true))
  = map (λ f, getSelectionType (selection f))
      (files (withIncludeAllFiles (fromFiles mixed) true)) ∧
  map (λ f, getSelectionType (selection f))
      (files (withIncludeAllFiles (fromFiles mixed) true))
  = replicate (length (files (fromFiles mixed))) DiffSelectionType.All ∧
  (files (withIncludeAllFiles (withIncludeAllFiles (fromFiles mixed) true) true)
   = map (λ f, withIncludeAll (withIncludeAll f true) true) (files (fromFiles mixed)) ∧
   map path (files (withIncludeAllFiles (withIncludeAllFiles (fromFiles mixed) true) true))
   = map path (files (fromFiles mixed)) ∧
   map status (files (withIncludeAllFiles (withIncludeAllFiles (fromFiles mixed) true) true))
   = map status (files (fromFiles mixed))) ∧
  includeAll (withIncludeAllFiles (withIncludeAllFiles (fromFiles mixed) true) true)
  = includeAll (withIncludeAllFiles (fromFiles mixed) true) ∧
  includeAll (withIncludeAllFiles (fromFiles mixed) true) = Some true.
Proof.
  split; [reflexivity|]. split; [reflexivity|].
  apply (withIncludeAllFiles_flip_and_idempotent (fromFiles mixed) true); reflexivity.
Defined.

Example flip_of_mixed :
  map (λ f, (path f, getSelectionType (selection f)))
      (files (withIncludeAllFiles (withIncludeAllFiles (fromFiles mixed) true) false))
  = [("a.txt", DiffSelectionType.None); ("b.txt", DiffSelectionType.None)] ∧
  map (λ f, (path f, getSelectionType (selection f)))
      (files (withIncludeAllFiles (withIncludeAllFiles (fromFiles mixed) true) true))
  = [("a.txt", DiffSelectionType.All); ("b.txt", DiffSelectionType.All)].
Proof. split; reflexivity. Qed.
End Examples.

(** * Further properties of the identity derivation *)

Section IdentityMore.
Context {ConflictFileStatus : Type}.
Local Abbreviation Status := (AppFileStatus ConflictFileStatus).

Lemma kind_value_prefix_inj (k k' : AppFileStatusKind) (r r' : string) :
  kind_value k +:+ "+" +:+ r = kind_value k' +:+ "+" +:+ r' → k = k' ∧ r = r'.
Proof. destruct k, k'; simpl; intros [= ?]; by subst. Qed.

Lemma plus_char_string : String plus_char EmptyString = "+".
Proof. reflexivity. Qed.

Lemma append_plus_inj (a a' b b' : string) :
  mentions_plus a = false → mentions_plus a' = false →
  a +:+ "+" +:+ b = a' +:+ "+" +:+ b' → a = a' ∧ b = b'.
Proof.
  revert a'. induction a as [|c a IH]; intros [|c' a'] Hc Hc' Happ.
  - injection Happ as Hb. change (b = b') in Hb. by subst b'.
  - injection Happ as Hch _. subst c'. discriminate Hc'.
  - injection Happ as Hch _. subst c. discriminate Hc.
  - injection Happ as Hch Happ. subst c'.
    change (a +:+ "+" +:+ b = a' +:+ "+" +:+ b') in Happ.
    cbn in Hc, Hc'. destruct (Ascii.eqb c plus_char); [done|].
    by destruct (IH a' Hc Hc' Happ) as [-> ->].
Qed.

Lemma file_id_shape (p : string) (st : Status) :
  file_id p st
  = kind_value (kind st) +:+ "+" +:+
      match oldPath_of st with
      | Some o => p +:+ "+" +:+ o
      | None => p
      end.
Proof. by destruct st. Qed.

Lemma oldPath_of_kind (st : Status) :
  is_Some (oldPath_of st) ↔ kind st = KRenamed ∨ kind st = KCopied.
Proof.
  destruct st; simpl; split; try (intros [? [=]]); try (intros [[=]|[=]]); eauto.
Qed.

(** X1: files of different kinds never share an id, whatever their
    paths and old paths are. *)
Theorem file_id_separates_kinds (p p' : string) (st st' : Status) :
  kind st ≠ kind st' → file_id p st ≠ file_id p' st'.
Proof.
  intros Hk Hid. rewrite !file_id_shape in Hid.
  by apply kind_value_prefix_inj in Hid as [? _].
Qed.

(** X2: for a status that is neither Renamed nor Copied the id
    determines the kind and the path: two such files with the same id have
    the same kind and the same path. *)
Theorem file_id_plain_injective (p p' : string) (st st' : Status) :
  oldPath_of st = None → oldPath_of st' = None →
  file_id p st = file_id p' st' →
  kind st = kind st' ∧ p = p'.
Proof.
  intros Ho Ho' Hid. rewrite !file_id_shape, Ho, Ho' in Hid.
  by apply kind_value_prefix_inj in Hid.
Qed.

(** X3: when neither path contains the character +, the id determines
    kind, path and old path: ids collide only through a + inside a path. *)
Theorem file_id_injective_without_plus (p p' : string) (st st' : Status) :
  mentions_plus p = false → mentions_plus p' = false →
  file_id p st = file_id p' st' →
  kind st = kind st' ∧ p = p' ∧ oldPath_of st = oldPath_of st'.
Proof.
  intros Hp Hp' Hid. rewrite !file_id_shape in Hid.
  apply kind_value_prefix_inj in Hid as [Hk Hr]. split; [done|].
  assert (is_Some (oldPath_of st) ↔ is_Some (oldPath_of st')) as Hsome
    by (by rewrite !oldPath_of_kind, Hk).
  destruct (oldPath_of st) as [o|], (oldPath_of st') as [o'|].
  - by apply append_plus_inj in Hr as [-> ->].
  - destruct (proj1 Hsome (mk_is_Some _ _ eq_refl)) as [? [=]].
  - destruct (proj2 Hsome (mk_is_Some _ _ eq_refl)) as [? [=]].
  - done.
Qed.
End IdentityMore.

(** * Further properties of the index and of lookup *)

Section IndexMore.
Context {ConflictFileStatus DiffSelection : Type}.
Local Abbreviation WDFile := (WorkingDirectoryFileChange ConflictFileStatus DiffSelection).

(** The map depends on the files only through their ids. *)
Lemma index_files_ids (ix : nat) (fs fs' : list WDFile) (m : gmap string nat) :
  ids fs = ids fs' → index_files ix fs m = index_files ix fs' m.
Proof.
  revert ix fs' m. induction fs as [|f fs IH]; intros ix [|f' fs'] m; try done.
  unfold ids. simpl. intros [= Hf Hfs]. rewrite Hf. by apply IH.
Qed.

Lemma index_files_dom (fs : list WDFile) :
  dom (index_files 0 fs ∅) = list_to_set (ids fs).
Proof.
  unfold ids. induction fs as [|x fs IH] using rev_ind.
  - simpl. by rewrite dom_empty_L.
  - rewrite index_files_snoc, dom_insert_L, IH, map_app, list_to_set_app_L.
    cbn [map]. rewrite list_to_set_cons, list_to_set_nil, (right_id_L ∅ (∪)).
    apply union_comm_L.
Qed.

Lemma size_list_to_set_le (l : list string) :
  size (list_to_set l : gset string) ≤ length l ∧
  (size (list_to_set l : gset string) = length l ↔ NoDup l).
Proof.
  induction l as [|x l [IHle IHeq]].
  - rewrite list_to_set_nil, size_empty. split; [done|]. split; [constructor | done].
  - rewrite list_to_set_cons, NoDup_cons. cbn [length].
    destruct (decide (x ∈ l)) as [Hin|Hnin].
    + assert ({[x]} ∪ list_to_set l = (list_to_set l : gset string)) as ->.
      { apply subseteq_union_1_L, singleton_subseteq_l. by apply elem_of_list_to_set. }
      split; [lia|]. split; [lia | by intros []].
    + rewrite size_union, size_singleton.
      * split; [lia|]. rewrite <- IHeq.
        split; [intros; split; [done|lia] | intros [_ ?]; lia].
      * apply disjoint_singleton_l. by rewrite elem_of_list_to_set.
Qed.

(** X4: the index holds exactly the ids that occur in the file list, so
    it never has more entries than there are files, and it has as many
    entries as files exactly when the ids of the files are pairwise
    distinct. *)
Theorem index_domain_and_size (fs : list WDFile) (incl : option bool) :
  let s := new_WorkingDirectoryStatus fs incl in
  (∀ i : string, is_Some (fileIxById s !! i) ↔ i ∈ ids fs) ∧
  size (fileIxById s) ≤ length fs ∧
  (size (fileIxById s) = length fs ↔ NoDup (ids fs)).
Proof.
  simpl. pose proof (index_files_dom fs) as Hdom.
  pose proof (size_list_to_set_le (ids fs)) as [Hle Heq].
  rewrite <- Hdom, size_dom in Hle, Heq.
  unfold ids in Hle, Heq at 1. rewrite length_map in Hle, Heq.
  split_and!; [|done..].
  intros i. by rewrite <- elem_of_dom, Hdom, elem_of_list_to_set.
Qed.

Lemma lookup_ids (fs : list WDFile) (j : nat) (i : string) :
  ids fs !! j = Some i ↔ ∃ f, fs !! j = Some f ∧ id f = i.
Proof.
  unfold ids. rewrite list_lookup_fmap.
  destruct (fs !! j) as [f|]; simpl; split.
  - intros [= <-]. eauto.
  - by intros (f' & [= <-] & <-).
  - done.
  - by intros (f' & [=] & _).
Qed.

(** X5: lookup by id inverts the positions of the file list exactly when
    the ids are pairwise distinct: every file is found at its own position
    under its own id if and only if no two files share an id. *)
Theorem lookup_inverts_positions_iff_unique (fs : list WDFile) (incl : option bool) :
  let s := new_WorkingDirectoryStatus fs incl in
  NoDup (ids fs) ↔
  ∀ (j : nat) (f : WDFile),
    fs !! j = Some f →
    findFileIndexByID s (id f) = Z.of_nat j ∧ findFileWithID s (id f) = Some f.
Proof.
  simpl. split.
  - intros Hnd j f Hj.
    destruct (latest_with_id_exists fs j f Hj) as (k & f' & _ & Hl).
    pose proof Hl as (Hk & Hid & _).
    assert (k = j) as ->.
    { eapply NoDup_lookup; [exact Hnd | |]; apply lookup_ids; eauto. }
    assert (f' = f) as -> by congruence.
    by destruct (find_latest fs incl (id f) j f Hl).
  - intros Hfind. apply NoDup_alt. intros j k i Hj Hk.
    apply lookup_ids in Hj as (f & Hj & <-). apply lookup_ids in Hk as (g & Hk & Hg).
    destruct (Hfind j f Hj) as [Hfj _]. destruct (Hfind k g Hk) as [Hgk _].
    rewrite Hg in Hgk. lia.
Qed.

(** X6: on a constructed status the two lookups agree: the index is -1
    exactly when no file is returned, and a non-negative index is a valid
    position of the file list whose file is the one [findFileWithID]
    returns; the fallback for an index outside the list is never taken. *)
Theorem lookups_agree (fs : list WDFile) (incl : option bool) (i : string) :
  let s := new_WorkingDirectoryStatus fs incl in
  (findFileIndexByID s i = (-1)%Z ↔ findFileWithID s i = None) ∧
  (∀ k : nat,
     findFileIndexByID s i = Z.of_nat k →
     ∃ f, files s !! k = Some f ∧ id f = i ∧ findFileWithID s i = Some f).
Proof.
  simpl. unfold findFileIndexByID, findFileWithID. simpl.
  destruct (index_files 0 fs ∅ !! i) as [k|] eqn:Hix.
  - apply index_files_latest in Hix as (f & Hk & Hid & _). split.
    + rewrite Hk. split; [lia | done].
    + intros k' Hk'. assert (k' = k) as -> by lia. eauto.
  - split; [done|]. intros k Hk. lia.
Qed.
End IndexMore.

(** * Further properties of the include flag and of bulk selection *)

Section SelectionMore.
Context {ConflictFileStatus DiffSelection : Type} `{!DiffSelectionOps DiffSelection}.
Local Abbreviation WDFile := (WorkingDirectoryFileChange ConflictFileStatus DiffSelection).
Local Abbreviation WDStatus := (WorkingDirectoryStatus ConflictFileStatus DiffSelection).

Lemma getIncludeAllState_uniform (fs : list WDFile) (b : bool) :
  fs ≠ [] →
  every_file_selects
    (if b then DiffSelectionType.All else DiffSelectionType.None) fs →
  getIncludeAllState fs = Some b.
Proof.
  intros Hne Hall. rewrite (getIncludeAllState_nonempty fs Hne). destruct b.
  - apply forallb_selects in Hall. by rewrite Hall.
  - assert (forallb (selects DiffSelectionType.All) fs = false) as ->.
    { apply forallb_selects_false. intros Ha. by eapply all_and_none_exclusive. }
    apply forallb_selects in Hall. by rewrite Hall.
Qed.

(** X7: when the collaborator's [withSelectAll] / [withSelectNone] yield
    selections of type [All] / [None], the flag that [withIncludeAllFiles]
    stores for a non-empty status is the flag [getIncludeAllState] derives
    from the new files: the result is the status [fromFiles] builds from
    them. *)
Theorem withIncludeAllFiles_agrees_with_fromFiles (s : WDStatus) (b : bool) :
  (∀ sel : DiffSelection,
     getSelectionType (withSelectAll sel) = DiffSelectionType.All) →
  (∀ sel : DiffSelection,
     getSelectionType (withSelectNone sel) = DiffSelectionType.None) →
  files s ≠ [] →
  withIncludeAllFiles s b = fromFiles (files (withIncludeAllFiles s b)).
Proof.
  intros HAll HNone Hne. unfold fromFiles.
  rewrite (getIncludeAllState_uniform _ b); [done | |].
  - rewrite withIncludeAllFiles_files. by destruct (files s).
  - apply withIncludeAllFiles_types. intros sel. by destruct b.
Qed.

(** X8: on a status without files the stored flag and the derived flag
    differ: [withIncludeAllFiles false] stores [false], while
    [getIncludeAllState] answers [true] for the (empty) file list of the
    result. *)
Theorem withIncludeAllFiles_false_on_empty (s : WDStatus) :
  files s = [] →
  includeAll (withIncludeAllFiles s false) = Some false ∧
  files (withIncludeAllFiles s false) = [] ∧
  getIncludeAllState (files (withIncludeAllFiles s false)) = Some true.
Proof. intros Hs. rewrite withIncludeAllFiles_files, Hs. done. Qed.

(** X9: one file that is neither fully selected nor fully deselected
    makes the flag indeterminate: if some file of the list has selection
    type [Partial], [getIncludeAllState] answers [null]. *)
Theorem getIncludeAllState_partial (fs : list WDFile) (f : WDFile) :
  f ∈ fs →
  getSelectionType (selection f) = DiffSelectionType.Partial →
  getIncludeAllState fs = None.
Proof.
  intros Hf Hp.
  assert (fs ≠ []) as Hne by (intros ->; by apply elem_of_nil in Hf).
  rewrite (getIncludeAllState_nonempty fs Hne).
  assert (∀ t, t ≠ DiffSelectionType.Partial → forallb (selects t) fs = false) as Hno.
  { intros t Ht. apply forallb_selects_false. intros Hall.
    unfold every_file_selects in Hall. rewrite Forall_forall in Hall.
    specialize (Hall f Hf). congruence. }
  by rewrite !Hno.
Qed.

(** X10: the last bulk selection wins: under the same assumption on the
    collaborator, selecting with [x] and then with [y] leaves the files
    with the selection types, and the status with the flag, that selecting
    with [y] alone gives. *)
Theorem withIncludeAllFiles_last_wins (s : WDStatus) (x y : bool) :
  (∀ sel : DiffSelection,
     getSelectionType (withSelectAll sel) = DiffSelectionType.All) →
  (∀ sel : DiffSelection,
     getSelectionType (withSelectNone sel) = DiffSelectionType.None) →
  map (λ f, getSelectionType (selection f))
      (files (withIncludeAllFiles (withIncludeAllFiles s x) y))
  = map (λ f, getSelectionType (selection f)) (files (withIncludeAllFiles s y)) ∧
  includeAll (withIncludeAllFiles (withIncludeAllFiles s x) y)
  = includeAll (withIncludeAllFiles s y).
Proof.
  intros HAll HNone. split; [|done].
  set (t := if y then DiffSelectionType.All else DiffSelectionType.None).
  assert (∀ sel : DiffSelection,
            getSelectionType (if y then withSelectAll sel else withSelectNone sel) = t)
    as Hsel by (intros sel; subst t; destruct y; auto).
  rewrite !(selection_types_after _ y t Hsel).
  f_equal. by rewrite withIncludeAllFiles_files, length_map.
Qed.

Lemma withIncludeAll_id_constructed (f : WDFile) (b : bool) :
  constructed f → id (withIncludeAll f b) = id f.
Proof. intros (p & st & sel & ->). by destruct b. Qed.

Lemma withIncludeAllFiles_ids (fs : list WDFile) (b : bool) :
  Forall constructed fs → ids (map (λ f, withIncludeAll f b) fs) = ids fs.
Proof.
  unfold ids. induction 1 as [|f fs Hf _ IH]; [done|].
  cbn [map]. by rewrite IH, withIncludeAll_id_constructed.
Qed.

(** X11: bulk selection does not disturb lookup.  For a status built
    from constructed files, [withIncludeAllFiles] keeps the number of
    files and their ids, every id is found at the position it was found at
    before, and the file found is the previously found file mapped through
    [withIncludeAll]. *)
Theorem withIncludeAllFiles_preserves_lookup
    (fs : list WDFile) (incl : option bool) (b : bool) (i : string) :
  Forall constructed fs →
  let s := new_WorkingDirectoryStatus fs incl in
  length (files (withIncludeAllFiles s b)) = length fs ∧
  ids (files (withIncludeAllFiles s b)) = ids fs ∧
  findFileIndexByID (withIncludeAllFiles s b) i = findFileIndexByID s i ∧
  findFileWithID (withIncludeAllFiles s b) i
  = (λ f, withIncludeAll f b) <$> findFileWithID s i.
Proof.
  intros Hc. simpl.
  pose proof (withIncludeAllFiles_ids fs b Hc) as Hids.
  pose proof (index_files_ids 0 _ _ ∅ Hids) as Hix.
  unfold findFileIndexByID, findFileWithID, withIncludeAllFiles. simpl.
  rewrite Hix. split_and!; [by rewrite length_map | done | done |].
  destruct (index_files 0 fs ∅ !! i) as [k|]; [|done].
  by rewrite list_lookup_fmap.
Qed.
End SelectionMore.

(** * Properties of the missing-repository view *)

Section MissingRepositoryFacts.
Import MissingRepository.
Context {Error : Type}.
Local Abbreviation World := (@MissingRepository.World Error).

Lemma clearCheckingTimer_clears (w : World) :
  (∀ h, checkingTimer (this w) = Some h → (0 < h)%Z) →
  pending w ⊆ own_timers (this w) →
  pending (clearCheckingTimer w) = ∅ ∧
  checkingTimer (this (clearCheckingTimer w)) = None ∧
  checkingAgainTimeElapsed (this (clearCheckingTimer w))
  = checkingAgainTimeElapsed (this w) ∧
  checkingAgainRefreshCompleted (this (clearCheckingTimer w))
  = checkingAgainRefreshCompleted (this w).
Proof.
  intros Hpos Hsub. unfold clearCheckingTimer, own_timers in *.
  destruct (checkingTimer (this w)) as [h|] eqn:Ht.
  - specialize (Hpos h eq_refl). unfold truthy_number.
    destruct (Z.eqb_spec h 0) as [->|_]; [lia|]. simpl.
    split_and!; try done. apply elem_of_equiv_empty_L. intros x.
    rewrite elem_of_difference. intros [Hx Hne]. apply Hne, Hsub, Hx.
  - split_and!; try done. apply elem_of_equiv_empty_L. intros x Hx.
    by apply Hsub, elem_of_empty in Hx.
Qed.

Lemma checkAgain_fields (w : World) (repository : Repository) (h : Z) :
  fields_consistent w → (0 < h)%Z →
  pending (checkAgain repository h w) = {[h]} ∧
  this (checkAgain repository h w)
  = {| checkingAgainTimeElapsed := false;
       checkingAgainRefreshCompleted := true;
       checkingTimer := Some h |}.
Proof.
  intros (Hp & _ & _ & Hpos) Hh.
  destruct (clearCheckingTimer_clears w Hpos) as (Hp' & _); [by rewrite Hp|].
  unfold checkAgain. simpl. rewrite Hp'. split; [|done].
  apply (right_id_L ∅ (∪)).
Qed.

Lemma timer_fires_fields (w : World) (h : Z) :
  fields_consistent w → h ∈ pending w →
  pending (timer_fires h w) = ∅ ∧
  this (timer_fires h w)
  = {| checkingAgainTimeElapsed := true;
       checkingAgainRefreshCompleted := true;
       checkingTimer := None |}.
Proof.
  intros (Hp & Hr & _ & Hpos) Hh. unfold timer_fires, checkingAgainTimerElapsed.
  set (w0 := set_checkingAgainTimeElapsed true _).
  destruct (clearCheckingTimer_clears w0) as (Hp' & Ht & He & Hc).
  - exact Hpos.
  - subst w0. simpl. rewrite Hp. apply subseteq_difference_l. done.
  - simpl. split; [done|].
    destruct (this (clearCheckingTimer w0)) as [e c t]. simpl in *.
    by rewrite Ht, He, Hc, Hr.
Qed.

Lemma reachable_fields_consistent (w : World) : reachable w → fields_consistent w.
Proof.
  induction 1 as [|w repository h _ IH Hh|w h _ IH Hh|w r _ IH|w r _ IH].
  - split_and!; try done. split; [done | by intros [? [=]]].
  - destruct (checkAgain_fields w repository h IH Hh) as [Hp Hthis].
    unfold fields_consistent. rewrite Hp, Hthis. unfold own_timers. simpl.
    split_and!; [done | done | split; eauto | by intros ? [= <-]].
  - destruct (timer_fires_fields w h IH Hh) as [Hp Hthis].
    unfold fields_consistent. rewrite Hp, Hthis. unfold own_timers. simpl.
    split_and!; [done | done | split; [done | by intros [? [=]]] | done].
  - exact IH.
  - exact IH.
Qed.

(** X12: while the component is mounted, the only timer of it that the
    window has pending is the one recorded in [checkingTimer]; in
    particular at most one timer is ever pending, however often
    [checkAgain] is run. *)
Theorem at_most_one_pending_timer (w : World) :
  reachable w →
  pending w = own_timers (this w) ∧ size (pending w) ≤ 1.
Proof.
  intros (Hp & _)%reachable_fields_consistent. split; [done|].
  rewrite Hp. unfold own_timers. destruct (checkingTimer (this w)).
  - by rewrite size_singleton.
  - rewrite size_empty. lia.
Qed.

(** X13: outside of [checkAgain] the flag [checkingAgainRefreshCompleted]
    is always set, so the text shown depends on the timer alone: the view
    shows the checking text exactly while the timer is pending, and the
    check-again link otherwise. *)
Theorem checking_text_iff_timer_pending (w : World) :
  reachable w →
  checkingAgainRefreshCompleted (this w) = true ∧
  (renderCheckAgainText (this w) = CheckingSpan ↔ ∃ h, pending w = {[h]}) ∧
  (renderCheckAgainText (this w) = CheckAgainLink ↔ pending w = ∅).
Proof.
  intros (Hp & Hr & He & Hpos)%reachable_fields_consistent.
  unfold renderCheckAgainText. rewrite Hr, Hp. unfold own_timers. simpl.
  destruct (checkingTimer (this w)) as [h|];
    destruct (checkingAgainTimeElapsed (this w)).
  - destruct He as [_ He]. discriminate He. by eexists.
  - split_and!; [done | split; eauto |]. split; [done|].
    intros Hs. assert (h ∈ (∅ : gset Z)) as Hin by (rewrite <- Hs; by apply elem_of_singleton).
    by apply elem_of_empty in Hin.
  - split_and!; [done | | done]. split; [done|]. intros [h Hs].
    assert (h ∈ (∅ : gset Z)) as Hin by (rewrite Hs; by apply elem_of_singleton).
    by apply elem_of_empty in Hin.
  - destruct He as [He _]. by destruct (He eq_refl) as [? [=]].
Qed.

(** X14: unmounting leaves no timer behind: after
    [componentWillUnmount] the window has no timer of the component
    pending and the component remembers none. *)
Theorem unmount_leaves_no_timer (w : World) :
  reachable w →
  pending (componentWillUnmount w) = ∅ ∧
  checkingTimer (this (componentWillUnmount w)) = None.
Proof.
  intros (Hp & _ & _ & Hpos)%reachable_fields_consistent.
  destruct (clearCheckingTimer_clears w Hpos) as (Hp' & Ht & _); [by rewrite Hp|].
  done.
Qed.

(** X15: a check cycle.  Running [checkAgain] in any reachable world
    leaves exactly the new timer pending and shows the checking text; when
    that timer fires, no timer is pending and the check-again link is
    shown again. *)
Theorem check_again_cycle (w : World) (repository : Repository) (h : Z) :
  reachable w → (0 < h)%Z →
  pending (checkAgain repository h w) = {[h]} ∧
  renderCheckAgainText (this (checkAgain repository h w)) = CheckingSpan ∧
  pending (timer_fires h (checkAgain repository h w)) = ∅ ∧
  renderCheckAgainText (this (timer_fires h (checkAgain repository h w)))
  = CheckAgainLink.
Proof.
  intros Hw Hh.
  pose proof (reachable_checkAgain w repository h Hw Hh) as Hw1.
  destruct (checkAgain_fields w repository h (reachable_fields_consistent w Hw) Hh)
    as [Hp Hthis].
  destruct (timer_fires_fields (checkAgain repository h w) h
              (reachable_fields_consistent _ Hw1)) as [Hp2 Hthis2].
  { rewrite Hp. by apply elem_of_singleton. }
  by rewrite Hp, Hthis, Hp2, Hthis2.
Qed.
End MissingRepositoryFacts.

Section CloneAgainFacts.
Import MissingRepository.
Context {Error : Type}.
Local Abbreviation Effect := (@MissingRepository.Effect Error).

Lemma truthy_string_spec (v : option string) :
  truthy_string v = true ↔ ∃ url, v = Some url ∧ url ≠ "".
Proof.
  destruct v as [s|]; simpl.
  - destruct (String.eqb_spec s ""); simpl; split; try done.
    + by intros (url & [= <-] & Hne).
    + eauto.
  - split; [done | by intros (? & [=] & _)].
Qed.

Lemma cloneAgain_cases (repository : Repository) (outcome : option Error) :
  cloneAgain repository outcome
  = if truthy_string (canCloneAgain repository)
    then match canCloneAgain repository with
         | Some url =>
             CloneAgain url (path repository) ::
             match outcome with Some e => [PostError e] | None => [] end
         | None => []
         end
    else [].
Proof.
  unfold cloneAgain, canCloneAgain.
  destruct (gitHubRepository repository) as [g|]; [|done].
  by destruct (truthy_string (cloneURL g)); simpl; destruct (cloneURL g).
Qed.

Lemma render_buttons (repository : Repository) (c : Component) :
  buttons (render repository c)
  = if truthy_string (canCloneAgain repository)
    then [LocateButton; CloneAgainButton; RemoveButton]
    else [LocateButton; RemoveButton].
Proof. unfold render. simpl. by destruct (truthy_string _). Qed.

Lemma clone_button_offered :
  CloneAgainButton ∈ [LocateButton; CloneAgainButton; RemoveButton].
Proof. rewrite !elem_of_cons. auto. Qed.

Lemma clone_button_withheld : CloneAgainButton ∉ [LocateButton; RemoveButton].
Proof. rewrite !elem_of_cons, elem_of_nil. by intros [[=] | [[=] | []]]. Qed.

(** X16: the clone-again button is offered exactly when pressing it
    clones.  The row of buttons is locate, remove, with clone-again
    between them exactly when the repository has a GitHub repository with
    a non-empty clone URL; and exactly then [cloneAgain] calls the
    dispatcher, first of all and with that very URL and the repository's
    path.  Whatever clone [cloneAgain] dispatches is for the repository's
    own clone URL and path, and without the button [cloneAgain] makes no
    call at all. *)
Theorem clone_again_button_iff_clone_dispatched
    (repository : Repository) (c : Component) (outcome : option Error) :
  (buttons (render repository c) = [LocateButton; CloneAgainButton; RemoveButton] ∨
   buttons (render repository c) = [LocateButton; RemoveButton]) ∧
  (CloneAgainButton ∈ buttons (render repository c) ↔
     ∃ g url, gitHubRepository repository = Some g ∧ cloneURL g = Some url ∧ url ≠ "") ∧
  (CloneAgainButton ∈ buttons (render repository c) ↔
     ∃ g url,
       gitHubRepository repository = Some g ∧ cloneURL g = Some url ∧ url ≠ "" ∧
       (cloneAgain repository outcome : list Effect) !! 0
       = Some (CloneAgain url (path repository))) ∧
  (∀ (url target : string),
     CloneAgain url target ∈ (cloneAgain repository outcome : list Effect) →
     CloneAgainButton ∈ buttons (render repository c) ∧
     (∃ g, gitHubRepository repository = Some g ∧ cloneURL g = Some url) ∧
     url ≠ "" ∧ target = path repository) ∧
  (CloneAgainButton ∉ buttons (render repository c) →
     (cloneAgain repository outcome : list Effect) = []).
Proof.
  rewrite render_buttons, cloneAgain_cases.
  pose proof (truthy_string_spec (canCloneAgain repository)) as Ht.
  destruct (truthy_string (canCloneAgain repository)).
  - destruct Ht as [Ht _]. destruct (Ht eq_refl) as (url & Hurl & Hne).
    rewrite Hurl.
    assert (∃ g, gitHubRepository repository = Some g ∧ cloneURL g = Some url)
      as (g & Hg & Hu).
    { unfold canCloneAgain in Hurl.
      destruct (gitHubRepository repository) as [g|]; [|done]. eauto. }
    split_and!.
    + by left.
    + split; [intros _; eauto | intros _; apply clone_button_offered].
    + split; [intros _; by exists g, url | intros _; apply clone_button_offered].
    + intros url' target Hin.
      assert (url' = url ∧ target = path repository) as [-> ->].
      { apply elem_of_cons in Hin as [[= -> ->] | Hin]; [done|].
        destruct outcome as [e|].
        - apply elem_of_cons in Hin as [[=] | Hin]. by apply elem_of_nil in Hin.
        - by apply elem_of_nil in Hin. }
      split_and!; [apply clone_button_offered | eauto | done | done].
    + intros Hn. exfalso. apply Hn, clone_button_offered.
  - assert (¬ ∃ g url, gitHubRepository repository = Some g ∧
                       cloneURL g = Some url ∧ url ≠ "") as Hnone.
    { intros (g & url & Hg & Hu & Hne).
      destruct Ht as [_ Ht]. discriminate Ht. exists url.
      unfold canCloneAgain. by rewrite Hg. }
    split_and!.
    + by right.
    + split; [by intros ?%clone_button_withheld | by intros ?%Hnone].
    + split; [by intros ?%clone_button_withheld|].
      intros (g & url & Hg & Hu & Hne & _). exfalso. apply Hnone. eauto.
    + intros url target Hin. by apply elem_of_nil in Hin.
    + done.
Qed.

(** X17: [cloneAgain] reports a failed clone and nothing else.  When the
    clone is attempted and rejected with [e], the calls are the clone
    followed by one [postError e]; when it resolves, the clone is the only
    call; an error is posted in no other case. *)
Theorem cloneAgain_posts_rejection_only
    (repository : Repository) (outcome : option Error) (e : Error) :
  (PostError e ∈ (cloneAgain repository outcome : list Effect) ↔
     outcome = Some e ∧ truthy_string (canCloneAgain repository) = true) ∧
  (∀ url, canCloneAgain repository = Some url → url ≠ "" →
     cloneAgain repository (Some e) = [CloneAgain url (path repository); PostError e] ∧
     cloneAgain repository (None : option Error) = [CloneAgain url (path repository)]) ∧
  length (cloneAgain repository outcome : list Effect) ≤ 2.
Proof.
  split_and!.
  - rewrite cloneAgain_cases.
    pose proof (truthy_string_spec (canCloneAgain repository)) as Ht.
    destruct (truthy_string (canCloneAgain repository)).
    + destruct Ht as [Ht _]. destruct (Ht eq_refl) as (url & -> & _).
      destruct outcome as [e'|].
      * rewrite !elem_of_cons, elem_of_nil. split.
        -- intros [[=] | [[= ->] | []]]. done.
        -- intros [[= ->] _]. right. by left.
      * rewrite elem_of_cons, elem_of_nil. split; [by intros [[=] | []] | by intros [[=] _]].
    + rewrite elem_of_nil. split; [done | by intros [_ [=]]].
  - intros url Hurl Hne. rewrite !cloneAgain_cases.
    assert (truthy_string (canCloneAgain repository) = true) as ->
      by (apply truthy_string_spec; eauto).
    by rewrite Hurl.
  - rewrite cloneAgain_cases.
    destruct (truthy_string _); [|simpl; lia].
    destruct (canCloneAgain repository); [|simpl; lia].
    destruct outcome; simpl; lia.
Qed.
End CloneAgainFacts.

(** * The further properties on concrete inputs *)

Section MoreExamples.
Import TriState.

Lemma file_id_separates_kinds_witness :
  kind (New : AppFileStatus unit) ≠ kind (Modified : AppFileStatus unit) ∧
  file_id "x" (New : AppFileStatus unit) ≠ file_id "x" (Modified : AppFileStatus unit).
Proof.
  split; [discriminate|]. apply file_id_separates_kinds. discriminate.
Defined.

Lemma file_id_plain_injective_witness :
  oldPath_of (Conflicted true) = None ∧
  oldPath_of (Conflicted false) = None ∧
  file_id "x" (Conflicted true) = file_id "x" (Conflicted false) ∧
  kind (Conflicted true) = kind (Conflicted false) ∧
  "x" = "x".
Proof.
  split; [reflexivity|]. split; [reflexivity|]. split; [reflexivity|].
  apply (file_id_plain_injective "x" "x" (Conflicted true) (Conflicted false));
    reflexivity.
Defined.

Lemma file_id_injective_without_plus_witness :
  mentions_plus "b.txt" = false ∧
  file_id "b.txt" (Renamed "a.txt" : AppFileStatus unit)
  = file_id "b.txt" (Renamed "a.txt" : AppFileStatus unit) ∧
  kind (Renamed "a.txt" : AppFileStatus unit) = kind (Renamed "a.txt" : AppFileStatus unit) ∧
  "b.txt" = "b.txt" ∧
  oldPath_of (Renamed "a.txt" : AppFileStatus unit)
  = oldPath_of (Renamed "a.txt" : AppFileStatus unit).
Proof.
  split; [reflexivity|]. split; [reflexivity|].
  apply (file_id_injective_without_plus "b.txt" "b.txt"
           (Renamed "a.txt" : AppFileStatus unit) (Renamed "a.txt"));
    reflexivity.
Defined.

Lemma withIncludeAllFiles_agrees_with_fromFiles_witness :
  (∀ sel : DiffSelection, getSelectionType (withSelectAll sel) = DiffSelectionType.All) ∧
  (∀ sel : DiffSelection, getSelectionType (withSelectNone sel) = DiffSelectionType.None) ∧
  files (fromFiles mixed) ≠ [] ∧
  withIncludeAllFiles (fromFiles mixed) false
  = fromFiles (files (withIncludeAllFiles (fromFiles mixed) false)).
Proof.
  split; [reflexivity|]. split; [reflexivity|]. split; [discriminate|].
  apply (withIncludeAllFiles_agrees_with_fromFiles (fromFiles mixed) false);
    [reflexivity | reflexivity | discriminate].
Defined.

Lemma withIncludeAllFiles_false_on_empty_witness :
  files (fromFiles ([] : list (WorkingDirectoryFileChange unit DiffSelection))) = [] ∧
  includeAll (withIncludeAllFiles
                (fromFiles ([] : list (WorkingDirectoryFileChange unit DiffSelection)))
                false) = Some false ∧
  files (withIncludeAllFiles
           (fromFiles ([] : list (WorkingDirectoryFileChange unit DiffSelection)))
           false) = [] ∧
  getIncludeAllState
    (files (withIncludeAllFiles
              (fromFiles ([] : list (WorkingDirectoryFileChange unit DiffSelection)))
              false)) = Some true.
Proof.
  split; [reflexivity|].
  apply (withIncludeAllFiles_false_on_empty (fromFiles [])). reflexivity.
Defined.

Lemma getIncludeAllState_partial_witness :
  file "a.txt" Modified DiffSelectionType.Partial ∈ mixed ∧
  getSelectionType (selection (file "a.txt" Modified DiffSelectionType.Partial))
  = DiffSelectionType.Partial ∧
  getIncludeAllState mixed = None.
Proof.
  split; [constructor|]. split; [reflexivity|].
  apply (getIncludeAllState_partial mixed (file "a.txt" Modified DiffSelectionType.Partial));
    [constructor | reflexivity].
Defined.

Lemma withIncludeAllFiles_last_wins_witness :
  (∀ sel : DiffSelection, getSelectionType (withSelectAll sel) = DiffSelectionType.All) ∧
  (∀ sel : DiffSelection, getSelectionType (withSelectNone sel) = DiffSelectionType.None) ∧
  map (λ f, getSelectionType (selection f))
      (files (withIncludeAllFiles (withIncludeAllFiles (fromFiles mixed) true) false))
  = map (λ f, getSelectionType (selection f))
      (files (withIncludeAllFiles (fromFiles mixed) false)) ∧
  includeAll (withIncludeAllFiles (withIncludeAllFiles (fromFiles mixed) true) false)
  = includeAll (withIncludeAllFiles (fromFiles mixed) false).
Proof.
  split; [reflexivity|]. split; [reflexivity|].
  apply (withIncludeAllFiles_last_wins (fromFiles mixed) true false); reflexivity.
Defined.

Lemma withIncludeAllFiles_preserves_lookup_witness :
  Forall constructed mixed ∧
  length (files (withIncludeAllFiles (new_WorkingDirectoryStatus mixed None) true))
  = length mixed ∧
  ids (files (withIncludeAllFiles (new_WorkingDirectoryStatus mixed None) true))
  = ids mixed ∧
  findFileIndexByID (withIncludeAllFiles (new_WorkingDirectoryStatus mixed None) true)
    "New+b.txt"
  = findFileIndexByID (new_WorkingDirectoryStatus mixed None) "New+b.txt" ∧
  findFileWithID (withIncludeAllFiles (new_WorkingDirectoryStatus mixed None) true)
    "New+b.txt"
  = (λ f, withIncludeAll f true)
      <$> findFileWithID (new_WorkingDirectoryStatus mixed None) "New+b.txt".
Proof.
  assert (Forall constructed mixed) as Hc
    by (repeat constructor; eexists _, _, _; reflexivity).
  split; [exact Hc|].
  apply (withIncludeAllFiles_preserves_lookup mixed None true "New+b.txt" Hc).
Defined.

Example lookup_after_bulk_selection :
  findFileIndexByID (withIncludeAllFiles (fromFiles mixed) true) "New+b.txt" = 1%Z ∧
  findFileWithID (withIncludeAllFiles (fromFiles mixed) true) "New+b.txt"
  = Some (file "b.txt" New DiffSelectionType.All).
Proof. vm_compute. done. Qed.

Example index_size_of_duplicated :
  size (fileIxById (fromFiles duplicated)) = 2 ∧ length duplicated = 3.
Proof. vm_compute. done. Qed.
End MoreExamples.

Section ComponentExamples.
Import MissingRepository.

Lemma at_most_one_pending_timer_witness :
  reachable checking ∧
  pending checking = own_timers (this checking) ∧ size (pending checking) ≤ 1.
Proof.
  split; [apply reachable_checkAgain; [apply reachable_initial | reflexivity]|].
  apply (at_most_one_pending_timer checking).
  apply reachable_checkAgain; [apply reachable_initial | reflexivity].
Defined.

Lemma checking_text_iff_timer_pending_witness :
  reachable checking ∧
  checkingAgainRefreshCompleted (this checking) = true ∧
  (renderCheckAgainText (this checking) = CheckingSpan ↔ ∃ h, pending checking = {[h]}) ∧
  (renderCheckAgainText (this checking) = CheckAgainLink ↔ pending checking = ∅).
Proof.
  split; [apply reachable_checkAgain; [apply reachable_initial | reflexivity]|].
  apply (checking_text_iff_timer_pending checking).
  apply reachable_checkAgain; [apply reachable_initial | reflexivity].
Defined.

Lemma unmount_leaves_no_timer_witness :
  reachable checking ∧
  pending (componentWillUnmount checking) = ∅ ∧
  checkingTimer (this (componentWillUnmount checking)) = None.
Proof.
  split; [apply reachable_checkAgain; [apply reachable_initial | reflexivity]|].
  apply (unmount_leaves_no_timer checking).
  apply reachable_checkAgain; [apply reachable_initial | reflexivity].
Defined.

Lemma check_again_cycle_witness :
  reachable checking ∧ (0 < 9)%Z ∧
  pending (checkAgain sample_repository 9 checking) = {[9%Z]} ∧
  renderCheckAgainText (this (checkAgain sample_repository 9 checking)) = CheckingSpan ∧
  pending (timer_fires 9 (checkAgain sample_repository 9 checking)) = ∅ ∧
  renderCheckAgainText (this (timer_fires 9 (checkAgain sample_repository 9 checking)))
  = CheckAgainLink.
Proof.
  split; [apply reachable_checkAgain; [apply reachable_initial | reflexivity]|].
  split; [reflexivity|].
  apply (check_again_cycle checking sample_repository 9);
    [apply reachable_checkAgain; [apply reachable_initial | reflexivity] | reflexivity].
Defined.

Example checking_log :
  log checking
  = [SetTimeout 1000 7; RefreshRepository sample_repository; ForceUpdate] ∧
  log (checkAgain sample_repository 9 checking)
  = [SetTimeout 1000 7; RefreshRepository sample_repository; ForceUpdate;
     ClearTimeout 7; SetTimeout 1000 9; RefreshRepository sample_repository;
     ForceUpdate] ∧
  log (timer_fires 7 checking)
  = [SetTimeout 1000 7; RefreshRepository sample_repository; ForceUpdate;
     ClearTimeout 7; ForceUpdate].
Proof. split_and!; reflexivity. Qed.

Example sample_render :
  buttons (render sample_repository (this checking))
  = [LocateButton; CloneAgainButton; RemoveButton] ∧
  check_again_text (render sample_repository (this checking)) = CheckingSpan ∧
  cloneAgain sample_repository (Some tt)
  = [CloneAgain "https://example.org/desktop.git" "/home/u/desktop"; PostError tt].
Proof. split_and!; reflexivity. Qed.
End ComponentExamples.
